(** * NodeStorage: the in-memory credential cache of msal-node

    A shallow embedding of the [NodeStorage] class (the storage engine
    that extends msal-common's [CacheManager]) and the properties of its
    flat store, change notification, bucketed view, typed accessors and
    key repair.

    Modelling conventions.
    - The flat store [cache : CacheKVStore] is a JavaScript object used
      as a string-keyed map; it is a [gmap string ValidCacheType] holding
      the object's own entries, and enumeration order is left unspecified.
      The object is a plain one: a read of a name it inherits from
      [Object.prototype] finds the inherited member when there is no own
      entry, and a write to the name [__proto__] runs the prototype's
      setter.  The map does not hold these; every statement that reads a
      key which may be absent, or writes a key, is stated for the keys on
      which the object behaves as a map ([ordinaryKey], [writableKey]).
    - [cache[key]] on a missing key is [undefined]: reads yield an
      [option], with [None] for both [undefined] and [null].
    - The methods mutate [this]; they are functions in a state monad over
      the record [NodeStorage].  A local [const cache = this.getCache()]
      is a reference to the very object stored in [this.cache], so a write
      through the local is a write to [this.cache].
    - A change callback is an opaque zero-argument function.  It is
      identified by a number, and each call is appended to the ghost log
      [invoked] together with the store the callback can observe at that
      moment.  Callbacks do not re-enter the engine.
    - [clear] is declared [async] but never awaits: its body runs to the
      end within the call.
    - Logger calls have no effect on the engine and are left out. *)

From stdpp Require Import gmap strings list fin_maps.

Local Open Scope string_scope.
Local Open Scope list_scope.

(** ** Cache entries *)

(** Modelled from the spec: the entity classes of msal-common
    ([AccountEntity], [IdTokenEntity], ...) are not part of the sources at
    hand.  A cache entry is "a tagged value, one of variants Account,
    IdToken, AccessToken, RefreshToken, AppMetadata, ServerTelemetry,
    Throttling, AuthorityMetadata, Unknown". *)
Inductive EntityKind : Type :=
  | Account
  | IdToken
  | AccessToken
  | RefreshToken
  | AppMetadata
  | ServerTelemetry
  | Throttling
  | AuthorityMetadata
  | Unknown.

#[global] Instance EntityKind_eq_dec : EqDecision EntityKind.
Proof. solve_decision. Defined.

(** Modelled from the spec: an entity object is its kind tag together with
    an opaque payload, here the object's own fields. *)
Record CacheEntity : Type := mkEntity {
  entityKind : EntityKind;
  entityFields : list (string * string);
}.

(** Modelled from the spec: [ValidCacheType] is declared in msal-common,
    which is not part of the sources at hand.  The store holds heterogeneous,
    possibly externally written data: a value is an entity object of one of
    the kinds, or a raw string (the string member of the union). *)
Inductive ValidCacheType : Type :=
  | VString (s : string)
  | VEntity (e : CacheEntity).

Abbreviation CacheKVStore := (gmap string ValidCacheType).

(** JavaScript's ToBoolean on what a property read returns: [undefined]
    and the empty string are falsy, every object and every other string is
    truthy. *)
Definition truthy (v : option ValidCacheType) : bool :=
  match v with
  | None => false
  | Some (VString EmptyString) => false
  | Some (VString (String _ _)) => true
  | Some (VEntity _) => true
  end.

(** ** Keys on which a plain object is a map *)




(** A key whose write adds or replaces an own entry: every name but
    [__proto__], whose write runs the prototype's setter. *)
Definition writableKey (key : string) : Prop :=
  key ≠ "__proto__".

(** [v instanceof K] for one of the entity classes. *)
Definition instanceOf (K : EntityKind) (v : ValidCacheType) : bool :=
  match v with
  | VString _ => false
  | VEntity e => bool_decide (entityKind e = K)
  end.

(** ** The engine's state *)

Record Invocation : Type := mkInvocation {
  callee : nat;
  seen : CacheKVStore;
}.

Record NodeStorage : Type := mkNodeStorage {
  cache : CacheKVStore;
  changeEmitters : list nat;
  invoked : list Invocation;
}.

Record InMemoryCache : Type := mkInMemoryCache {
  accounts : CacheKVStore;
  idTokens : CacheKVStore;
  accessTokens : CacheKVStore;
  refreshTokens : CacheKVStore;
  appMetadata : CacheKVStore;
}.

(** ** A state monad for the methods *)

Definition M (A : Type) : Type := NodeStorage → A * NodeStorage.

Definition ret {A : Type} (a : A) : M A := λ this, (a, this).

Definition bind {A B : Type} (c : M A) (k : A → M B) : M B :=
  λ this, let (a, this') := c this in k a this'.

Notation "x <- c ;; k" := (bind c (λ x, k))
  (at level 100, c at next level, right associativity).
Notation "c ;;; k" := (bind c (λ _, k))
  (at level 100, right associativity).

Definition result {A : Type} (c : M A) (this : NodeStorage) : A := (c this).1.
Definition after {A : Type} (c : M A) (this : NodeStorage) : NodeStorage :=
  (c this).2.

(** [Array.prototype.forEach] with an effectful body. *)
Fixpoint forEach {A : Type} (l : list A) (body : A → M unit) : M unit :=
  match l with
  | [] => ret tt
  | x :: rest => body x ;;; forEach rest body
  end.

(** [func.call(null)]: the callback runs and observes the current store. *)
Definition call (func : nat) : M unit :=
  λ this, (tt, mkNodeStorage (cache this) (changeEmitters this)
                 (invoked this ++ [mkInvocation func (cache this)])).

(** [this.cache = c]. *)
Definition assignCache (c : CacheKVStore) : M unit :=
  λ this, (tt, mkNodeStorage c (changeEmitters this) (invoked this)).

(** [cache[key] = value] through a reference to [this.cache], as the
    write of an own entry: what the object does on every [writableKey]. *)
Definition putProp (key : string) (value : ValidCacheType) : M unit :=
  λ this, (tt, mkNodeStorage (<[key := value]> (cache this))
                 (changeEmitters this) (invoked this)).

(** [delete cache[key]] through a reference to [this.cache]. *)
Definition deleteProp (key : string) : M unit :=
  λ this, (tt, mkNodeStorage (delete key (cache this))
                 (changeEmitters this) (invoked this)).

(** ** Flat store and change notification *)

Definition registerChangeEmitter (func : nat) : M unit :=
  λ this, (tt, mkNodeStorage (cache this) (changeEmitters this ++ [func])
                 (invoked this)).

Definition emitChange : M unit :=
  λ this, forEach (changeEmitters this) call this.

Definition getCache : M CacheKVStore :=
  λ this, (cache this, this).

Definition setCache (c : CacheKVStore) : M unit :=
  assignCache c ;;;
  emitChange.

(** [cache[key]], as the own entry under [key]: what the object yields on
    every [ordinaryKey] and on every key that has an own entry. *)
Definition getItem (key : string) : M (option ValidCacheType) :=
  c <- getCache ;;
  ret (c !! key).

Definition setItem (key : string) (value : ValidCacheType) : M unit :=
  c <- getCache ;;
  putProp key value ;;;
  setCache (<[key := value]> c).

(** The guard [!!cache[key]] is taken on the own entry under [key], as in
    [getItem]. *)
Definition removeItem (key : string) : M bool :=
  c <- getCache ;;
  let res := truthy (c !! key) in
  (if res then deleteProp key else ret tt) ;;;
  (if res then setCache (delete key c) ;;; emitChange else ret tt) ;;;
  ret res.

Definition getKeys : M (list string) :=
  c <- getCache ;;
  ret (map_to_list c).*1.

Definition containsKey (key : string) : M bool :=
  keys <- getKeys ;;
  ret (bool_decide (key ∈ keys)).

Definition clear : M unit :=
  cacheKeys <- getKeys ;;
  forEach cacheKeys (λ key, removeItem key ;;; ret tt) ;;;
  emitChange.

(** ** Bucketed view conversion *)

Definition emptyInMemoryCache : InMemoryCache :=
  mkInMemoryCache ∅ ∅ ∅ ∅ ∅.

(** One turn of the [for (const key in cache)] loop: the [instanceof]
    chain and the bucket write it selects. *)
Definition classifyInto (key : string) (value : ValidCacheType)
    (inMemoryCache : InMemoryCache) : InMemoryCache :=
  let '(mkInMemoryCache acc idt act rft app) := inMemoryCache in
  if instanceOf Account value then
    mkInMemoryCache (<[key := value]> acc) idt act rft app
  else if instanceOf IdToken value then
    mkInMemoryCache acc (<[key := value]> idt) act rft app
  else if instanceOf AccessToken value then
    mkInMemoryCache acc idt (<[key := value]> act) rft app
  else if instanceOf RefreshToken value then
    mkInMemoryCache acc idt act (<[key := value]> rft) app
  else if instanceOf AppMetadata value then
    mkInMemoryCache acc idt act rft (<[key := value]> app)
  else
    inMemoryCache.

Definition cacheToInMemoryCache (c : CacheKVStore) : InMemoryCache :=
  map_fold classifyInto emptyInMemoryCache c.

(** Object spread [{...target, ...source}]: every own property of
    [source] is written over [target]. *)
Definition spread (target source : CacheKVStore) : CacheKVStore :=
  map_fold (λ key value acc, <[key := value]> acc) target source.

Definition inMemoryCacheToCache (inMemoryCache : InMemoryCache)
    : M CacheKVStore :=
  c <- getCache ;;
  ret (spread (spread (spread (spread (spread (spread ∅ c)
         (accounts inMemoryCache))
         (idTokens inMemoryCache))
         (accessTokens inMemoryCache))
         (refreshTokens inMemoryCache))
         (appMetadata inMemoryCache)).

Definition getInMemoryCache : M InMemoryCache :=
  c <- getCache ;;
  ret (cacheToInMemoryCache c).

Definition setInMemoryCache (inMemoryCache : InMemoryCache) : M unit :=
  c <- inMemoryCacheToCache inMemoryCache ;;
  setCache c ;;;
  emitChange.

Definition getAccountKeys : M (list string) :=
  inMemoryCache <- getInMemoryCache ;;
  ret (map_to_list (accounts inMemoryCache)).*1.

(** ** External collaborators *)

(** The parts of msal-common the engine calls and does not own: the
    credential's key derivation, the field validation of the classifiers
    and the key test of the app-metadata classifier. *)
Class Collaborators : Type := {
  generateCredentialKey : CacheEntity → string;
  hasRequiredFields : CacheEntity → bool;
  isAppMetadataKey : string → bool;
}.

(** Modelled from the spec: the per-kind classifiers of msal-common
    ([AccountEntity.isAccountEntity] and its siblings) are not part of the
    sources at hand.  A classifier "decides whether it is a valid instance
    of that kind", and an entry is a tagged value: it accepts the entries
    that carry its own tag and pass the validation of their fields. *)
Definition isEntityOf `{Collaborators} (K : EntityKind)
    (entity : option ValidCacheType) : bool :=
  match entity with
  | Some (VEntity e) => bool_decide (entityKind e = K) && hasRequiredFields e
  | Some (VString _) => false
  | None => false
  end.

Definition isAccountEntity `{Collaborators}
    : option ValidCacheType → bool := isEntityOf Account.
Definition isIdTokenEntity `{Collaborators}
    : option ValidCacheType → bool := isEntityOf IdToken.
Definition isAccessTokenEntity `{Collaborators}
    : option ValidCacheType → bool := isEntityOf AccessToken.
Definition isRefreshTokenEntity `{Collaborators}
    : option ValidCacheType → bool := isEntityOf RefreshToken.

(** Modelled from the spec: the app-metadata classifier is handed the key
    as well as the value. *)
Definition isAppMetadataEntity `{Collaborators} (key : string)
    (entity : option ValidCacheType) : bool :=
  isAppMetadataKey key && isEntityOf AppMetadata entity.

(** ** Typed accessors *)

Definition getAccount `{Collaborators} (accountKey : string)
    : M (option ValidCacheType) :=
  account <- getItem accountKey ;;
  if isAccountEntity account then ret account else ret None.

Definition getIdTokenCredential `{Collaborators} (idTokenKey : string)
    : M (option ValidCacheType) :=
  idToken <- getItem idTokenKey ;;
  if isIdTokenEntity idToken then ret idToken else ret None.

Definition getAccessTokenCredential `{Collaborators} (accessTokenKey : string)
    : M (option ValidCacheType) :=
  accessToken <- getItem accessTokenKey ;;
  if isAccessTokenEntity accessToken then ret accessToken else ret None.

Definition getRefreshTokenCredential `{Collaborators} (refreshTokenKey : string)
    : M (option ValidCacheType) :=
  refreshToken <- getItem refreshTokenKey ;;
  if isRefreshTokenEntity refreshToken then ret refreshToken else ret None.

Definition getAppMetadata `{Collaborators} (appMetadataKey : string)
    : M (option ValidCacheType) :=
  appMetadata <- getItem appMetadataKey ;;
  if isAppMetadataEntity appMetadataKey appMetadata
  then ret appMetadata else ret None.

(** The typed getter of each of the five bucketed kinds, selected by kind;
    the other kinds have no getter here. *)
Definition getOfKind `{Collaborators} (K : EntityKind) (key : string)
    : M (option ValidCacheType) :=
  match K with
  | Account => getAccount key
  | IdToken => getIdTokenCredential key
  | AccessToken => getAccessTokenCredential key
  | RefreshToken => getRefreshTokenCredential key
  | AppMetadata => getAppMetadata key
  | _ => ret None
  end.

Definition bucketedKinds : list EntityKind :=
  [Account; IdToken; AccessToken; RefreshToken; AppMetadata].

(** ** Key consistency repair *)

Definition updateCredentialCacheKey `{Collaborators}
    (currentCacheKey : string) (credential : CacheEntity) : M string :=
  let updatedCacheKey := generateCredentialKey credential in
  if bool_decide (currentCacheKey ≠ updatedCacheKey) then
    cacheItem <- getItem currentCacheKey ;;
    match cacheItem with
    | Some item =>
        if truthy cacheItem then
          removeItem currentCacheKey ;;;
          setItem updatedCacheKey item ;;;
          ret updatedCacheKey
        else ret currentCacheKey
    | None => ret currentCacheKey
    end
  else ret currentCacheKey.

(** ** Vocabulary of the statements *)

(** One round of notification: every registered callback, in registration
    order, observing the store [c]. *)
Definition notifications (c : CacheKVStore) (funcs : list nat) : list Invocation :=
  map (λ func, mkInvocation func c) funcs.

(** How often [func] is registered. *)
Definition registrations (func : nat) (funcs : list nat) : nat :=
  length (filter (λ f, f = func) funcs).

(** How often [func] has been called in a log. *)
Definition invocationsOf (func : nat) (log : list Invocation) : nat :=
  length (filter (λ i, callee i = func) log).

(** N consecutive [setItem] calls. *)
Definition setItems (kvs : list (string * ValidCacheType)) : M unit :=
  forEach kvs (λ kv, setItem kv.1 kv.2).

(** The first of the five bucketed kinds, in the order of the [instanceof]
    chain, that accepts a value. *)
Definition firstAccepting (value : ValidCacheType) : option EntityKind :=
  find (λ K, instanceOf K value) bucketedKinds.

Definition bucket (K : EntityKind) (inMemoryCache : InMemoryCache) : CacheKVStore :=
  match K with
  | Account => accounts inMemoryCache
  | IdToken => idTokens inMemoryCache
  | AccessToken => accessTokens inMemoryCache
  | RefreshToken => refreshTokens inMemoryCache
  | AppMetadata => appMetadata inMemoryCache
  | _ => ∅
  end.

(** The binding of [key] in a merge of [sources], the last source that has
    the key winning. *)
Definition lastWriter (sources : list CacheKVStore) (key : string)
    : option ValidCacheType :=
  fold_left (λ acc source,
               match source !! key with
               | Some v => Some v
               | None => acc
               end) sources None.

(** Sample collaborators and stores, to run the engine on concrete
    inputs: the key is the credential's field values joined by dashes. *)
Definition sampleCollaborators : Collaborators := {|
  generateCredentialKey e := String.concat "-" (entityFields e).*2;
  hasRequiredFields e := bool_decide (entityFields e ≠ []);
  isAppMetadataKey key := String.prefix "appmetadata" key;
|}.

Definition sampleAccount : ValidCacheType :=
  VEntity (mkEntity Account [("homeAccountId", "hid-1"); ("realm", "common")]).

Definition sampleIdToken : ValidCacheType :=
  VEntity (mkEntity IdToken [("homeAccountId", "hid-1"); ("secret", "jwt")]).

Definition fiveKeys : NodeStorage :=
  mkNodeStorage
    (list_to_map [("k1", sampleAccount); ("k2", sampleIdToken);
                  ("k3", VString "nonce"); ("k4", sampleAccount);
                  ("k5", VString "state")])
    [7] [].

Definition staleIdToken : CacheEntity :=
  mkEntity IdToken [("homeAccountId", "hid-1"); ("secret", "jwt")].


(** ** Further accessors *)



(** The key derivations of the account and app-metadata entities, methods
    of msal-common's classes. *)
Class KeyGenerators : Type := {
  generateAccountKey : CacheEntity → string;
  generateAppMetadataKey : CacheEntity → string;
}.

Definition setAccount `{KeyGenerators} (account : CacheEntity) : M unit :=
  let accountKey := generateAccountKey account in
  setItem accountKey (VEntity account).

Definition setIdTokenCredential `{Collaborators} (idToken : CacheEntity)
    : M unit :=
  let idTokenKey := generateCredentialKey idToken in
  setItem idTokenKey (VEntity idToken).

Definition setAccessTokenCredential `{Collaborators} (accessToken : CacheEntity)
    : M unit :=
  let accessTokenKey := generateCredentialKey accessToken in
  setItem accessTokenKey (VEntity accessToken).

Definition setRefreshTokenCredential `{Collaborators}
    (refreshToken : CacheEntity) : M unit :=
  let refreshTokenKey := generateCredentialKey refreshToken in
  setItem refreshTokenKey (VEntity refreshToken).

Definition setAppMetadata `{KeyGenerators} (appMetadata : CacheEntity)
    : M unit :=
  let appMetadataKey := generateAppMetadataKey appMetadata in
  setItem appMetadataKey (VEntity appMetadata).

(** The classifiers of the kinds that have no bucket, which msal-common
    owns; each is handed the key and the value.  [isAuthorityMetadata] is
    the key test inherited from [CacheManager]. *)
Class KeyedClassifiers : Type := {
  isServerTelemetryEntity : string → option ValidCacheType → bool;
  isAuthorityMetadataEntity : string → option ValidCacheType → bool;
  isThrottlingEntity : string → option ValidCacheType → bool;
  isAuthorityMetadata : string → bool;
}.

Definition getServerTelemetry `{KeyedClassifiers} (serverTelemetrykey : string)
    : M (option ValidCacheType) :=
  serverTelemetryEntity <- getItem serverTelemetrykey ;;
  if truthy serverTelemetryEntity
     && isServerTelemetryEntity serverTelemetrykey serverTelemetryEntity
  then ret serverTelemetryEntity else ret None.

Definition setServerTelemetry (serverTelemetryKey : string)
    (serverTelemetry : ValidCacheType) : M unit :=
  setItem serverTelemetryKey serverTelemetry.

Definition getAuthorityMetadata `{KeyedClassifiers} (key : string)
    : M (option ValidCacheType) :=
  authorityMetadataEntity <- getItem key ;;
  if truthy authorityMetadataEntity
     && isAuthorityMetadataEntity key authorityMetadataEntity
  then ret authorityMetadataEntity else ret None.

Definition getAuthorityMetadataKeys `{KeyedClassifiers} : M (list string) :=
  keys <- getKeys ;;
  ret (List.filter (λ key, isAuthorityMetadata key) keys).

Definition setAuthorityMetadata (key : string) (metadata : ValidCacheType)
    : M unit :=
  setItem key metadata.

Definition getThrottlingCache `{KeyedClassifiers} (throttlingCacheKey : string)
    : M (option ValidCacheType) :=
  throttlingCache <- getItem throttlingCacheKey ;;
  if truthy throttlingCache
     && isThrottlingEntity throttlingCacheKey throttlingCache
  then ret throttlingCache else ret None.

Definition setThrottlingCache (throttlingCacheKey : string)
    (throttlingCache : ValidCacheType) : M unit :=
  setItem throttlingCacheKey throttlingCache.

(** ** Vocabulary of the further statements *)

(** The public operations that change the engine, as commands, and a
    sequence of calls. *)
Inductive Command : Type :=
  | CallRegisterChangeEmitter (func : nat)
  | CallEmitChange
  | CallSetCache (c : CacheKVStore)
  | CallSetItem (key : string) (value : ValidCacheType)
  | CallRemoveItem (key : string)
  | CallClear
  | CallSetInMemoryCache (inMemoryCache : InMemoryCache)
  | CallUpdateCredentialCacheKey (key : string) (credential : CacheEntity).

Definition runCommand `{Collaborators} (cmd : Command) : M unit :=
  match cmd with
  | CallRegisterChangeEmitter func => registerChangeEmitter func
  | CallEmitChange => emitChange
  | CallSetCache c => setCache c
  | CallSetItem key value => setItem key value
  | CallRemoveItem key => removeItem key ;;; ret tt
  | CallClear => clear
  | CallSetInMemoryCache inMemoryCache => setInMemoryCache inMemoryCache
  | CallUpdateCredentialCacheKey key credential =>
      updateCredentialCacheKey key credential ;;; ret tt
  end.

Definition runCommands `{Collaborators} (cmds : list Command) : M unit :=
  forEach cmds runCommand.

(** The callbacks a sequence of calls registers, in order. *)
Definition registeredBy (cmds : list Command) : list nat :=
  omap (λ cmd, match cmd with
               | CallRegisterChangeEmitter func => Some func
               | _ => None
               end) cmds.

(** The keys of the store that hold a truthy value. *)
Definition truthyKeys (this : NodeStorage) : list string :=
  filter (λ key, truthy (cache this !! key) = true) (result getKeys this).



Definition sampleKeyGenerators : KeyGenerators := {|
  generateAccountKey e := String.concat "-" (entityFields e).*2;
  generateAppMetadataKey e :=
    String.append "appmetadata-" (String.concat "-" (entityFields e).*2);
|}.

Definition sampleKeyedClassifiers : KeyedClassifiers := {|
  isServerTelemetryEntity key entity :=
    String.prefix "server-telemetry" key
    && match entity with
       | Some (VEntity e) => bool_decide (entityKind e = ServerTelemetry)
       | _ => false
       end;
  isAuthorityMetadataEntity key entity :=
    String.prefix "authority-metadata" key
    && match entity with
       | Some (VEntity e) => bool_decide (entityKind e = AuthorityMetadata)
       | _ => false
       end;
  isThrottlingEntity key entity :=
    String.prefix "throttling" key
    && match entity with
       | Some (VEntity e) => bool_decide (entityKind e = Throttling)
       | _ => false
       end;
  isAuthorityMetadata key := String.prefix "authority-metadata" key;
|}.


(** * Properties *)

(** ** Change notification *)

Lemma bind_run {A B : Type} (c : M A) (k : A → M B) (this this' : NodeStorage)
    (a : A) :
  c this = (a, this') → bind c k this = k a this'.
Proof. unfold bind. by intros ->. Qed.

Lemma forEach_call (funcs : list nat) (this : NodeStorage) :
  forEach funcs call this =
  (tt, mkNodeStorage (cache this) (changeEmitters this)
         (invoked this ++ notifications (cache this) funcs)).
Proof.
  revert this. induction funcs as [|f funcs IH]; intros [c es log].
  - cbn. by rewrite app_nil_r.
  - cbn. unfold bind. cbn. rewrite IH. cbn. by rewrite <- app_assoc.
Qed.

Lemma emitChange_eq (this : NodeStorage) :
  emitChange this =
  (tt, mkNodeStorage (cache this) (changeEmitters this)
         (invoked this ++ notifications (cache this) (changeEmitters this))).
Proof. unfold emitChange. apply forEach_call. Qed.

Lemma setCache_eq (c : CacheKVStore) (this : NodeStorage) :
  setCache c this =
  (tt, mkNodeStorage c (changeEmitters this)
         (invoked this ++ notifications c (changeEmitters this))).
Proof. unfold setCache, bind, assignCache. by rewrite emitChange_eq. Qed.

Lemma setItem_eq (key : string) (value : ValidCacheType) (this : NodeStorage) :
  setItem key value this =
  (tt, mkNodeStorage (<[key := value]> (cache this)) (changeEmitters this)
         (invoked this ++
          notifications (<[key := value]> (cache this)) (changeEmitters this))).
Proof. unfold setItem, bind, getCache, putProp. by rewrite setCache_eq. Qed.

Lemma removeItem_truthy (key : string) (this : NodeStorage) :
  truthy (cache this !! key) = true →
  removeItem key this =
  (true, mkNodeStorage (delete key (cache this)) (changeEmitters this)
           (invoked this ++
            notifications (delete key (cache this)) (changeEmitters this) ++
            notifications (delete key (cache this)) (changeEmitters this))).
Proof.
  intros Ht. unfold removeItem, bind, getCache, deleteProp. rewrite Ht.
  rewrite setCache_eq, emitChange_eq. cbn. by rewrite <- app_assoc.
Qed.

Lemma removeItem_falsy (key : string) (this : NodeStorage) :
  truthy (cache this !! key) = false →
  removeItem key this = (false, this).
Proof.
  intros Hf. unfold removeItem, bind, getCache. rewrite Hf. by destruct this.
Qed.

Lemma invocationsOf_app (func : nat) (l1 l2 : list Invocation) :
  invocationsOf func (l1 ++ l2) = invocationsOf func l1 + invocationsOf func l2.
Proof. unfold invocationsOf. by rewrite filter_app, length_app. Qed.

Lemma invocationsOf_notifications (func : nat) (c : CacheKVStore) (funcs : list nat) :
  invocationsOf func (notifications c funcs) = registrations func funcs.
Proof.
  unfold invocationsOf, registrations, notifications.
  induction funcs as [|f funcs IH]; [done|].
  cbn [map]. rewrite !filter_cons. cbn [callee].
  destruct (decide (f = func)); cbn [length]; by rewrite IH.
Qed.

Lemma getKeys_eq (this : NodeStorage) :
  getKeys this = ((map_to_list (cache this)).*1, this).
Proof. done. Qed.

Lemma elem_of_getKeys (key : string) (this : NodeStorage) :
  key ∈ result getKeys this ↔ is_Some (cache this !! key).
Proof.
  unfold result. rewrite getKeys_eq. cbn. rewrite list_elem_of_fmap. split.
  - intros [[k v] [-> Hin]]. apply elem_of_map_to_list in Hin. by exists v.
  - intros [v Hv]. exists (key, v). split; [done|]. by apply elem_of_map_to_list.
Qed.


Lemma after_setItems_cons (kv : string * ValidCacheType)
    (kvs : list (string * ValidCacheType)) (this : NodeStorage) :
  after (setItems (kv :: kvs)) this =
  after (setItems kvs) (after (setItem kv.1 kv.2) this).
Proof.
  unfold setItems, after. cbn [forEach]. unfold bind.
  by destruct (setItem kv.1 kv.2 this).
Qed.

Lemma after_setItem (key : string) (value : ValidCacheType) (this : NodeStorage) :
  after (setItem key value) this =
  mkNodeStorage (<[key := value]> (cache this)) (changeEmitters this)
    (invoked this ++
     notifications (<[key := value]> (cache this)) (changeEmitters this)).
Proof. unfold after. by rewrite setItem_eq. Qed.

Lemma setItems_log (func : nat) (kvs : list (string * ValidCacheType)) :
  ∀ this : NodeStorage,
    changeEmitters this = [func] →
    ∃ log : list Invocation,
      invoked (after (setItems kvs) this) = invoked this ++ log
      ∧ Forall2 (λ kv i, callee i = func ∧ seen i !! kv.1 = Some kv.2) kvs log.
Proof.
  induction kvs as [|[k v] kvs IH]; intros this Hem.
  - exists []. split; [|constructor]. cbn. by rewrite app_nil_r.
  - rewrite after_setItems_cons. cbn [fst snd].
    destruct (IH (after (setItem k v) this)) as (log & Hlog & Hall).
    { by rewrite after_setItem. }
    exists (mkInvocation func (<[k := v]> (cache this)) :: log). split.
    + rewrite Hlog, after_setItem. cbn [invoked]. rewrite Hem. cbn.
      by rewrite <- app_assoc.
    + constructor; [|done]. cbn. split; [done|]. apply lookup_insert_eq.
Qed.

Lemma invocationsOf_all (func : nat) (log : list Invocation) :
  Forall (λ i, callee i = func) log → invocationsOf func log = length log.
Proof.
  unfold invocationsOf. induction 1 as [|i log Hi _ IH]; [done|].
  rewrite filter_cons. destruct (decide (callee i = func)); [|done].
  cbn. by rewrite IH.
Qed.

(** C3. N consecutive [setItem] calls with a single registered callback
    call it exactly N times: the log grows by N invocations of that
    callback, the j-th of them made by the j-th call and, when the j-th key
    is one whose write adds an entry (any key but [__proto__]), observing
    a store in which the j-th key already reads the j-th value. *)
Theorem setItem_notification_count (N : nat) (this : NodeStorage) (func : nat)
    (kvs : list (string * ValidCacheType)) :
  changeEmitters this = [func] →
  length kvs = N →
  ∃ log : list Invocation,
    invoked (after (setItems kvs) this) = invoked this ++ log
    ∧ length log = N
    ∧ invocationsOf func log = N
    ∧ Forall2 (λ kv i, callee i = func
                       ∧ (writableKey kv.1 → seen i !! kv.1 = Some kv.2))
        kvs log.
Proof.
  intros Hem HN.
  destruct (setItems_log func kvs this Hem) as (log & Hlog & Hall).
  exists log. assert (length log = N) as Hlen.
  { rewrite <- HN. symmetry. by eapply Forall2_length. }
  repeat split; try done.
  - rewrite invocationsOf_all; [done|].
    clear -Hall. induction Hall as [|kv i kvs log [Hc _] _ IH]; by constructor.
  - eapply Forall2_impl; [exact Hall|]. by intros kv i [? ?].
Qed.

Lemma setItem_notification_count_witness :
  ∃ log : list Invocation,
    invoked (after (setItems [("k1", sampleAccount); ("k2", sampleIdToken)])
               (mkNodeStorage ∅ [7] [])) = [] ++ log
    ∧ length log = 2
    ∧ invocationsOf 7 log = 2
    ∧ Forall2 (λ kv i, callee i = 7 ∧ seen i !! kv.1 = Some kv.2)
        [("k1", sampleAccount); ("k2", sampleIdToken)] log.
Proof.
  destruct (setItem_notification_count 2 (mkNodeStorage ∅ [7] []) 7
              [("k1", sampleAccount); ("k2", sampleIdToken)])
    as (log & Hlog & Hlen & Hcount & Hall); [reflexivity | reflexivity |].
  exists log. split; [exact Hlog|]. split; [exact Hlen|].
  split; [exact Hcount|].
  inversion Hall as [|kv1 i1 kvs1 log1 [Hc1 Hs1] Hall1]; subst.
  inversion Hall1 as [|kv2 i2 kvs2 log2 [Hc2 Hs2] Hall2]; subst.
  inversion Hall2; subst.
  constructor; [split; [exact Hc1 | apply Hs1; discriminate]|].
  constructor; [split; [exact Hc2 | apply Hs2; discriminate]|].
  constructor.
Defined.

(** C10. When [key] holds a truthy value and a single callback is
    registered, one [removeItem(key)] calls it exactly twice: once from
    [setCache] and once more from the [emitChange] that follows, both after
    the key is gone. *)
Theorem removeItem_notifies_twice (this : NodeStorage) (key : string) (func : nat) :
  truthy (cache this !! key) = true →
  changeEmitters this = [func] →
  let gone := delete key (cache this) in
  let written := after (setCache gone) (after (deleteProp key) this) in
  invoked written = invoked this ++ [mkInvocation func gone]
  ∧ after (removeItem key) this = after emitChange written
  ∧ invoked (after (removeItem key) this) =
      invoked this ++ [mkInvocation func gone; mkInvocation func gone]
  ∧ invocationsOf func (invoked (after (removeItem key) this)) =
      invocationsOf func (invoked this) + 2.
Proof.
  intros Ht Hem gone written. subst written.
  unfold after. rewrite (removeItem_truthy key this Ht).
  unfold deleteProp. cbn [snd]. rewrite setCache_eq. cbn [snd].
  rewrite emitChange_eq. cbn [snd cache changeEmitters invoked].
  rewrite Hem. cbn [notifications map]. fold gone.
  repeat split.
  - by rewrite <- app_assoc.
  - rewrite invocationsOf_app. f_equal.
    change ([mkInvocation func gone] ++ [mkInvocation func gone])
      with (notifications gone [func; func]).
    rewrite invocationsOf_notifications. unfold registrations.
    by rewrite !filter_cons, !decide_True.
Qed.

Lemma removeItem_notifies_twice_witness :
  let this := mkNodeStorage {[ "k1" := sampleAccount ]} [7] [] in
  invocationsOf 7 (invoked (after (removeItem "k1") this)) =
  invocationsOf 7 (invoked this) + 2.
Proof.
  intros this.
  apply (removeItem_notifies_twice this "k1" 7); reflexivity.
Defined.

(** ** Flat store *)






(** ** [clear] *)

Lemma after_removeItem_truthy (key : string) (this : NodeStorage) :
  truthy (cache this !! key) = true →
  after (removeItem key ;;; ret tt) this =
  mkNodeStorage (delete key (cache this)) (changeEmitters this)
    (invoked this ++
     notifications (delete key (cache this)) (changeEmitters this) ++
     notifications (delete key (cache this)) (changeEmitters this)).
Proof. intros Ht. unfold after, bind. by rewrite removeItem_truthy. Qed.

(** Removing a duplicate-free list of keys that all hold truthy values. *)
Lemma forEach_removeItem (keys : list string) :
  ∀ this : NodeStorage,
    NoDup keys →
    (∀ key, key ∈ keys → truthy (cache this !! key) = true) →
    ∃ log : list Invocation,
      forEach keys (λ key, removeItem key ;;; ret tt) this =
        (tt, mkNodeStorage (filter (λ kv, kv.1 ∉ keys) (cache this))
               (changeEmitters this) (invoked this ++ log))
      ∧ ∀ func, invocationsOf func log =
                2 * length keys * registrations func (changeEmitters this).
Proof.
  induction keys as [|k keys IH]; intros this Hnd Hall.
  - exists []. split; [|done]. cbn. unfold ret. rewrite app_nil_r.
    rewrite map_filter_id; [by destruct this|]. intros ? ? _. by apply not_elem_of_nil.
  - apply NoDup_cons in Hnd as [Hk Hnd].
    assert (truthy (cache this !! k) = true) as Hkt by (apply Hall; left).
    pose proof (after_removeItem_truthy k this Hkt) as Hstep.
    set (this1 := after (removeItem k ;;; ret tt) this) in *.
    destruct (IH this1 Hnd) as (log & Hrun & Hcount).
    { intros key Hin. rewrite Hstep. cbn [cache].
      rewrite lookup_delete_ne; [apply Hall; by right|]. by intros ->. }
    exists (notifications (delete k (cache this)) (changeEmitters this) ++
            notifications (delete k (cache this)) (changeEmitters this) ++ log).
    split.
    + cbn [forEach]. unfold bind at 1.
      destruct ((removeItem k;;; ret tt) this) as [[] this1'] eqn:Hrm.
      assert (this1' = this1) as -> by (unfold this1, after; by rewrite Hrm).
      rewrite Hrun, Hstep. cbn [cache changeEmitters invoked].
      f_equal. f_equal.
      * apply map_eq. intros j. rewrite !map_lookup_filter.
        destruct (decide (j = k)) as [->|Hne].
        -- rewrite lookup_delete_eq. cbn.
           destruct (cache this !! k); [|done]. cbn.
           rewrite option_guard_False; [done|]. cbn. intros Hn. apply Hn. by left.
        -- rewrite lookup_delete_ne by done.
           destruct (cache this !! j); [|done]. cbn.
           destruct (decide (j ∈ keys)) as [Hj|Hj].
           ++ rewrite !option_guard_False; [done| |]; cbn; intros Hn; apply Hn;
                [by right | done].
           ++ rewrite !option_guard_True; [done| |]; cbn; [|done].
              intros [?|?]%elem_of_cons; done.
      * by rewrite <- !app_assoc.
    + intros func. rewrite !invocationsOf_app, !invocationsOf_notifications.
      rewrite Hcount, Hstep. cbn [changeEmitters length]. lia.
Qed.

(** C1, as stated, fails: on a store with five keys, all holding truthy
    values, [clear()] empties the store but calls the one registered
    callback eleven times, not once. *)
Lemma clear_five_keys_notifies_eleven_times :
  size (cache fiveKeys) = 5
  ∧ Forall (λ kv, truthy (Some kv.2) = true) (map_to_list (cache fiveKeys))
  ∧ result getKeys (after clear fiveKeys) = []
  ∧ invocationsOf 7 (invoked (after clear fiveKeys)) = 11
  ∧ invocationsOf 7 (invoked (after clear fiveKeys)) ≠ 1.
Proof.
  split; [by vm_compute|]. split; [vm_compute; by repeat constructor|].
  split; [by vm_compute|]. split; [by vm_compute|]. by vm_compute.
Qed.

(** C1, amended. On a store whose present keys all hold truthy values,
    [clear()] removes every key, so [getKeys()] is empty afterward.  With n
    keys present, each registered callback is called 2n+1 times per
    registration: twice for each removed key, and once more, observing the
    empty store, after all removals. *)
Theorem clear_removes_all_and_notifies (this : NodeStorage) :
  (∀ key v, cache this !! key = Some v → truthy (Some v) = true) →
  cache (after clear this) = ∅
  ∧ result getKeys (after clear this) = []
  ∧ changeEmitters (after clear this) = changeEmitters this
  ∧ (∃ log : list Invocation,
       invoked (after clear this) =
         invoked this ++ log ++ notifications ∅ (changeEmitters this)
       ∧ ∀ func, invocationsOf func log =
                 2 * size (cache this) * registrations func (changeEmitters this))
  ∧ (∀ func, invocationsOf func (invoked (after clear this)) =
             invocationsOf func (invoked this)
             + (2 * size (cache this) + 1)
               * registrations func (changeEmitters this)).
Proof.
  intros Htruthy.
  destruct (forEach_removeItem (map_to_list (cache this)).*1 this)
    as (log & Hrun & Hcount).
  { apply NoDup_fst_map_to_list. }
  { intros key Hin. apply (elem_of_getKeys key this) in Hin as [v Hv].
    rewrite Hv. by eapply Htruthy. }
  assert (filter (λ kv : string * ValidCacheType,
                    kv.1 ∉ (map_to_list (cache this)).*1) (cache this) = ∅)
    as Hempty.
  { apply map_eq. intros j. rewrite map_lookup_filter, lookup_empty.
    destruct (cache this !! j) as [v|] eqn:Hj; [|done]. cbn.
    rewrite option_guard_False; [done|]. cbn. intros Hn. apply Hn.
    apply (elem_of_getKeys j this). by exists v. }
  rewrite Hempty in Hrun.
  assert (length (map_to_list (cache this)).*1 = size (cache this)) as Hlen.
  { by rewrite length_fmap, length_map_to_list. }
  assert (after clear this =
          mkNodeStorage ∅ (changeEmitters this)
            (invoked this ++ log ++ notifications ∅ (changeEmitters this)))
    as Hafter.
  { unfold after, clear.
    rewrite (bind_run _ _ _ _ _ (getKeys_eq this)), (bind_run _ _ _ _ _ Hrun).
    rewrite emitChange_eq. cbn. by rewrite <- app_assoc. }
  rewrite Hafter. cbn [cache changeEmitters invoked].
  split; [done|]. split; [by vm_compute|]. split; [done|]. split.
  - exists log. split; [done|]. intros func. by rewrite Hcount, Hlen.
  - intros func.
    rewrite !invocationsOf_app, invocationsOf_notifications, Hcount, Hlen. lia.
Qed.

Lemma clear_removes_all_and_notifies_witness :
  result getKeys (after clear fiveKeys) = []
  ∧ invocationsOf 7 (invoked (after clear fiveKeys)) =
    invocationsOf 7 (invoked fiveKeys)
    + (2 * size (cache fiveKeys) + 1) * registrations 7 (changeEmitters fiveKeys).
Proof.
  assert (∀ key v, cache fiveKeys !! key = Some v → truthy (Some v) = true)
    as Htruthy.
  { intros key v Hkv. apply elem_of_map_to_list in Hkv.
    vm_compute in Hkv.
    repeat (apply elem_of_cons in Hkv as [Hkv|Hkv];
            [by inversion Hkv|]).
    by apply elem_of_nil in Hkv. }
  destruct (clear_removes_all_and_notifies fiveKeys Htruthy)
    as (_ & Hkeys & _ & _ & Hcount).
  split; [exact Hkeys | exact (Hcount 7)].
Defined.

(** ** Key consistency repair *)

Section KeyRepair.
Context `{Collaborators}.

Lemma updateCredentialCacheKey_same (this : NodeStorage) (key : string)
    (credential : CacheEntity) :
  generateCredentialKey credential = key →
  updateCredentialCacheKey key credential this = (key, this).
Proof.
  intros Heq. unfold updateCredentialCacheKey.
  rewrite bool_decide_eq_false_2; [done|]. intros Hne. by apply Hne.
Qed.

Lemma updateCredentialCacheKey_falsy (this : NodeStorage) (key : string)
    (credential : CacheEntity) :
  truthy (cache this !! key) = false →
  updateCredentialCacheKey key credential this = (key, this).
Proof.
  intros Hf. unfold updateCredentialCacheKey. case_bool_decide; [|done].
  unfold bind, getItem, bind, getCache. cbn.
  destruct (cache this !! key) as [item|]; [|done]. by rewrite Hf.
Qed.



End KeyRepair.





(** ** Bucketed view *)

Lemma classifyInto_eq (key : string) (value : ValidCacheType)
    (r : InMemoryCache) :
  classifyInto key value r =
  match firstAccepting value with
  | Some Account =>
      mkInMemoryCache (<[key := value]> (accounts r)) (idTokens r)
        (accessTokens r) (refreshTokens r) (appMetadata r)
  | Some IdToken =>
      mkInMemoryCache (accounts r) (<[key := value]> (idTokens r))
        (accessTokens r) (refreshTokens r) (appMetadata r)
  | Some AccessToken =>
      mkInMemoryCache (accounts r) (idTokens r)
        (<[key := value]> (accessTokens r)) (refreshTokens r) (appMetadata r)
  | Some RefreshToken =>
      mkInMemoryCache (accounts r) (idTokens r) (accessTokens r)
        (<[key := value]> (refreshTokens r)) (appMetadata r)
  | Some AppMetadata =>
      mkInMemoryCache (accounts r) (idTokens r) (accessTokens r)
        (refreshTokens r) (<[key := value]> (appMetadata r))
  | _ => r
  end.
Proof.
  destruct r as [acc idt act rft app], value as [s|[kind fields]];
    [reflexivity | destruct kind; reflexivity].
Qed.

Ltac eval_firstAccepting :=
  match goal with
  | |- context [firstAccepting ?v] =>
      let r := eval vm_compute in (firstAccepting v) in
      change (firstAccepting v) with r
  end.

Lemma bucket_classifyInto (K : EntityKind) (key j : string)
    (value : ValidCacheType) (r : InMemoryCache) :
  bucket K (classifyInto key value r) !! j =
  if bool_decide (j = key ∧ firstAccepting value = Some K)
  then Some value else bucket K r !! j.
Proof.
  rewrite classifyInto_eq. destruct r as [acc idt act rft app].
  destruct value as [s|[kind fields]]; [|destruct kind];
    repeat eval_firstAccepting; cbn [accounts idTokens accessTokens
      refreshTokens appMetadata];
    destruct K; cbn [bucket accounts idTokens accessTokens refreshTokens
      appMetadata];
    (destruct (decide (j = key)) as [->|Hne];
     [rewrite ?lookup_insert_eq | rewrite ?lookup_insert_ne by done]);
    case_bool_decide as Hd; try done;
    try (by destruct Hd); by (exfalso; apply Hd).
Qed.

Lemma lookup_cacheToInMemoryCache (c : CacheKVStore) (K : EntityKind)
    (key : string) :
  bucket K (cacheToInMemoryCache c) !! key =
  c !! key ≫= λ value,
    if bool_decide (firstAccepting value = Some K) then Some value else None.
Proof.
  unfold cacheToInMemoryCache. revert K key.
  apply (map_fold_weak_ind
           (λ (r : InMemoryCache) (m : CacheKVStore),
              ∀ K key, bucket K r !! key =
                m !! key ≫= λ value,
                  if bool_decide (firstAccepting value = Some K)
                  then Some value else None)).
  - intros K key. rewrite lookup_empty. by destruct K.
  - intros i x m r Hi IH K key. rewrite bucket_classifyInto, IH.
    destruct (decide (key = i)) as [->|Hne].
    + rewrite lookup_insert_eq, Hi. cbn.
      destruct (decide (firstAccepting x = Some K)) as [Hk|Hk].
      * by rewrite !bool_decide_eq_true_2.
      * rewrite !bool_decide_eq_false_2; [done|done|]. by intros [_ ?].
    + rewrite lookup_insert_ne by done.
      rewrite bool_decide_eq_false_2; [done|]. by intros [? _].
Qed.




Lemma lookup_spread (target source : CacheKVStore) (key : string) :
  spread target source !! key =
  match source !! key with
  | Some v => Some v
  | None => target !! key
  end.
Proof.
  unfold spread. revert key.
  apply (map_fold_weak_ind
           (λ (r m : CacheKVStore),
              ∀ key, r !! key = match m !! key with
                                | Some v => Some v
                                | None => target !! key
                                end)).
  - intros key. by rewrite lookup_empty.
  - intros i x m r _ IH key. destruct (decide (key = i)) as [->|Hne].
    + by rewrite !lookup_insert_eq.
    + by rewrite !lookup_insert_ne.
Qed.

(** C8. The flat-store conversion reads the engine without changing it
    and returns the merge of the current flat store with the buckets
    accounts, idTokens, accessTokens, refreshTokens, appMetadata, in that
    order: each key is bound to the value of the last of these sources
    that has it, so a bucket entry overwrites a flat entry of the same
    key.  [setInMemoryCache] installs this merge as the flat store. *)
Theorem inMemoryCacheToCache_last_writer (this : NodeStorage)
    (inMemoryCache : InMemoryCache) :
  after (inMemoryCacheToCache inMemoryCache) this = this
  ∧ (∀ key,
       result (inMemoryCacheToCache inMemoryCache) this !! key =
       lastWriter [cache this; accounts inMemoryCache; idTokens inMemoryCache;
                   accessTokens inMemoryCache; refreshTokens inMemoryCache;
                   appMetadata inMemoryCache] key)
  ∧ result (inMemoryCacheToCache inMemoryCache) this =
      appMetadata inMemoryCache ∪ (refreshTokens inMemoryCache ∪
        (accessTokens inMemoryCache ∪ (idTokens inMemoryCache ∪
          (accounts inMemoryCache ∪ cache this))))
  ∧ cache (after (setInMemoryCache inMemoryCache) this) =
      result (inMemoryCacheToCache inMemoryCache) this.
Proof.
  assert (∀ key,
       result (inMemoryCacheToCache inMemoryCache) this !! key =
       lastWriter [cache this; accounts inMemoryCache; idTokens inMemoryCache;
                   accessTokens inMemoryCache; refreshTokens inMemoryCache;
                   appMetadata inMemoryCache] key) as Hlookup.
  { intros key. unfold result, inMemoryCacheToCache, bind, getCache. cbn.
    rewrite !lookup_spread, lookup_empty.
    by destruct (cache this !! key). }
  split; [done|]. split; [done|]. split.
  - apply map_eq. intros key. rewrite Hlookup, !lookup_union. cbn.
    destruct (appMetadata inMemoryCache !! key),
      (refreshTokens inMemoryCache !! key),
      (accessTokens inMemoryCache !! key),
      (idTokens inMemoryCache !! key),
      (accounts inMemoryCache !! key),
      (cache this !! key); done.
  - assert (inMemoryCacheToCache inMemoryCache this =
            (result (inMemoryCacheToCache inMemoryCache) this, this)) as Hrun
      by done.
    unfold after, setInMemoryCache.
    rewrite (bind_run _ _ _ _ _ Hrun), (bind_run _ _ _ _ _ (setCache_eq _ _)).
    by rewrite emitChange_eq.
Qed.

(** ** Typed accessors *)

Lemma isEntityOf_unique `{Collaborators} (K1 K2 : EntityKind)
    (entity : option ValidCacheType) :
  isEntityOf K1 entity = true → isEntityOf K2 entity = true → K1 = K2.
Proof.
  destruct entity as [[s|e]|]; cbn; try done.
  intros [?%bool_decide_eq_true _]%andb_true_iff
         [?%bool_decide_eq_true _]%andb_true_iff.
  congruence.
Qed.

Lemma result_getOfKind `{Collaborators} (K : EntityKind) (key : string)
    (this : NodeStorage) :
  result (getOfKind K key) this =
  if isEntityOf K (cache this !! key) then result (getOfKind K key) this
  else None.
Proof.
  destruct (isEntityOf K (cache this !! key)) eqn:Hk; [done|].
  unfold result.
  destruct K; cbn [getOfKind]; try done;
    unfold getAccount, getIdTokenCredential, getAccessTokenCredential,
      getRefreshTokenCredential, getAppMetadata, isAppMetadataEntity,
      isAccountEntity, isIdTokenEntity, isAccessTokenEntity,
      isRefreshTokenEntity;
    rewrite (bind_run _ _ this this (cache this !! key)) by done;
    rewrite Hk, ?andb_false_r; done.
Qed.

(** C7. For two distinct bucketed kinds, when the typed getter of the
    first returns a value for a key, the typed getter of the second
    returns null for that key. *)
Theorem typed_getters_isolated `{Collaborators} (this : NodeStorage)
    (key : string) (K1 K2 : EntityKind) :
  K1 ∈ bucketedKinds →
  K2 ∈ bucketedKinds →
  K1 ≠ K2 →
  result (getOfKind K1 key) this ≠ None →
  result (getOfKind K2 key) this = None.
Proof.
  intros _ _ Hne Hsome.
  rewrite (result_getOfKind K1) in Hsome. rewrite (result_getOfKind K2).
  destruct (isEntityOf K1 (cache this !! key)) eqn:H1; [|done].
  destruct (isEntityOf K2 (cache this !! key)) eqn:H2; [|done].
  destruct Hne. by eapply isEntityOf_unique.
Qed.

Lemma typed_getters_isolated_witness :
  let this := mkNodeStorage {[ "k1" := sampleAccount ]} [7] [] in
  result (@getOfKind sampleCollaborators IdToken "k1") this = None.
Proof.
  intros this.
  apply (@typed_getters_isolated sampleCollaborators this "k1" Account IdToken).
  - by vm_compute; left.
  - vm_compute. right. by left.
  - discriminate.
  - discriminate.
Defined.

(** * Further properties *)

(** ** Registration and notification order *)

Lemma forEach_registerChangeEmitter (funcs : list nat) (this : NodeStorage) :
  forEach funcs registerChangeEmitter this =
  (tt, mkNodeStorage (cache this) (changeEmitters this ++ funcs) (invoked this)).
Proof.
  revert this. induction funcs as [|f funcs IH]; intros [c es log].
  - cbn. by rewrite app_nil_r.
  - cbn [forEach]. unfold bind at 1. cbn. rewrite IH. cbn.
    by rewrite <- app_assoc.
Qed.

(** X1. Callbacks are kept in registration order and are called in that
    order: after registering [funcs] one by one, a single [emitChange]
    calls every earlier callback and then [funcs], each once per
    registration and each observing the current store; registering and
    emitting leave the store itself as it was. *)
Theorem emitChange_registration_order (this : NodeStorage) (funcs : list nat) :
  let registered := after (forEach funcs registerChangeEmitter) this in
  changeEmitters registered = changeEmitters this ++ funcs
  ∧ invoked registered = invoked this
  ∧ cache (after emitChange registered) = cache this
  ∧ invoked (after emitChange registered) =
      invoked this ++ notifications (cache this) (changeEmitters this ++ funcs)
  ∧ (∀ func,
       invocationsOf func (invoked (after emitChange registered)) =
       invocationsOf func (invoked this)
       + registrations func (changeEmitters this) + registrations func funcs).
Proof.
  intros registered. subst registered. unfold after.
  rewrite forEach_registerChangeEmitter. cbn [snd]. rewrite emitChange_eq.
  cbn [snd cache changeEmitters invoked]. repeat split.
  intros func. rewrite invocationsOf_app, invocationsOf_notifications.
  unfold registrations. rewrite filter_app, length_app. lia.
Qed.

(** ** Reading back what was written *)

Lemma containsKey_true (key : string) (this : NodeStorage) :
  is_Some (cache this !! key) → result (containsKey key) this = true.
Proof.
  intros Hs. unfold result, containsKey, bind. rewrite getKeys_eq. cbn.
  apply bool_decide_eq_true. by apply (elem_of_getKeys key this).
Qed.

(** X2. A written value is read back: after [setItem(key, value)] on a
    key whose write adds an entry (any key but [__proto__]),
    [getItem(key)] returns that value and [containsKey(key)] is true,
    whatever the key held before and also when the value is falsy. *)
Theorem setItem_getItem_roundtrip (this : NodeStorage) (key : string)
    (value : ValidCacheType) :
  writableKey key →
  result (getItem key) (after (setItem key value) this) = Some value
  ∧ result (containsKey key) (after (setItem key value) this) = true
  ∧ key ∈ result getKeys (after (setItem key value) this).
Proof.
  intros _. rewrite after_setItem. split; [|split].
  - unfold result, getItem, bind, getCache. cbn. apply lookup_insert_eq.
  - apply containsKey_true. cbn. rewrite lookup_insert_eq. by eexists.
  - apply elem_of_getKeys. cbn. rewrite lookup_insert_eq. by eexists.
Qed.

Lemma setItem_getItem_roundtrip_witness :
  let this := mkNodeStorage {[ "k1" := sampleAccount ]} [7] [] in
  result (getItem "k1") (after (setItem "k1" (VString EmptyString)) this) =
    Some (VString EmptyString)
  ∧ result (containsKey "k1")
      (after (setItem "k1" (VString EmptyString)) this) = true
  ∧ "k1" ∈ result getKeys (after (setItem "k1" (VString EmptyString)) this).
Proof.
  intros this.
  apply (setItem_getItem_roundtrip this "k1" (VString EmptyString)).
  discriminate.
Defined.

(** X3. Writes compose as on a map, on keys whose write adds an entry
    (any key but [__proto__]): a second [setItem] on the same key
    overwrites the first, and writes to two different keys give the same
    store in either order. *)
Theorem setItem_overwrites_and_commutes (this : NodeStorage)
    (key key' : string) (value value' : ValidCacheType) :
  writableKey key →
  cache (after (setItem key value') (after (setItem key value) this)) =
    cache (after (setItem key value') this)
  ∧ (writableKey key' → key ≠ key' →
     cache (after (setItem key' value') (after (setItem key value) this)) =
     cache (after (setItem key value) (after (setItem key' value') this))).
Proof.
  intros _. rewrite !after_setItem. cbn [cache]. split.
  - apply insert_insert_eq.
  - intros _ Hne. by apply insert_insert_ne.
Qed.

Lemma setItem_overwrites_and_commutes_witness :
  let this := mkNodeStorage ∅ [7] [] in
  cache (after (setItem "k2" sampleIdToken)
           (after (setItem "k1" sampleAccount) this)) =
  cache (after (setItem "k1" sampleAccount)
           (after (setItem "k2" sampleIdToken) this)).
Proof.
  intros this.
  apply (setItem_overwrites_and_commutes this "k1" "k2" sampleAccount
           sampleIdToken); discriminate.
Defined.

Lemma after_removeItem (key : string) (this : NodeStorage) :
  after (removeItem key) this =
  if truthy (cache this !! key)
  then mkNodeStorage (delete key (cache this)) (changeEmitters this)
         (invoked this ++
          notifications (delete key (cache this)) (changeEmitters this) ++
          notifications (delete key (cache this)) (changeEmitters this))
  else this.
Proof.
  unfold after. destruct (truthy (cache this !! key)) eqn:Ht.
  - by rewrite removeItem_truthy.
  - by rewrite removeItem_falsy.
Qed.

(** X4. On a key whose write adds an entry (any key but [__proto__]):
    writing a truthy value under a fresh key and removing it again
    restores the store; writing the empty string instead leaves an entry
    that [removeItem] refuses to remove: it returns [false] and the key is
    still contained. *)
Theorem setItem_removeItem_roundtrip (this : NodeStorage) (key : string)
    (value : ValidCacheType) :
  writableKey key →
  (cache this !! key = None → truthy (Some value) = true →
   result (removeItem key) (after (setItem key value) this) = true
   ∧ cache (after (removeItem key) (after (setItem key value) this)) =
     cache this)
  ∧ (let written := after (setItem key (VString EmptyString)) this in
     result (removeItem key) written = false
     ∧ after (removeItem key) written = written
     ∧ result (containsKey key) (after (removeItem key) written) = true).
Proof.
  intros _. split.
  - intros Hnone Ht. rewrite after_removeItem, after_setItem. cbn [cache].
    unfold result. rewrite removeItem_truthy; cbn [cache];
      rewrite lookup_insert_eq; [|done]. rewrite Ht. cbn [fst cache].
    split; [done|]. rewrite delete_insert_eq. by apply delete_id.
  - cbn zeta. rewrite after_removeItem, after_setItem. cbn [cache].
    rewrite lookup_insert_eq. cbn [truthy]. unfold result.
    rewrite removeItem_falsy; cbn [cache]; rewrite ?lookup_insert_eq; [|done].
    repeat split. apply containsKey_true. cbn [cache].
    rewrite lookup_insert_eq. by eexists.
Qed.

Lemma setItem_removeItem_roundtrip_witness :
  let this := mkNodeStorage {[ "k1" := sampleAccount ]} [7] [] in
  result (removeItem "k2") (after (setItem "k2" sampleIdToken) this) = true
  ∧ cache (after (removeItem "k2") (after (setItem "k2" sampleIdToken) this)) =
    cache this.
Proof.
  intros this.
  apply (setItem_removeItem_roundtrip this "k2" sampleIdToken);
    [discriminate | reflexivity | reflexivity].
Defined.

(** ** [clear] on any store *)

Lemma lookup_filter_dec (P : string * ValidCacheType → Prop)
    `{∀ kv, Decision (P kv)} (m : CacheKVStore) (j : string) :
  filter P m !! j =
  match m !! j with
  | Some v => if decide (P (j, v)) then Some v else None
  | None => None
  end.
Proof.
  rewrite map_lookup_filter. destruct (m !! j) as [v|]; [|done]. cbn.
  destruct (decide (P (j, v))).
  - by rewrite option_guard_True.
  - by rewrite option_guard_False.
Qed.

Lemma filter_ext_elem {A : Type} (P Q : A → Prop) `{∀ x, Decision (P x)}
    `{∀ x, Decision (Q x)} (l : list A) :
  (∀ x, x ∈ l → P x ↔ Q x) → filter P l = filter Q l.
Proof.
  induction l as [|x l IH]; intros Hext; [done|].
  rewrite !filter_cons.
  rewrite IH by (intros y Hy; apply Hext; by right).
  destruct (decide (P x)) as [HP|HP], (decide (Q x)) as [HQ|HQ]; try done.
  - destruct HQ. apply Hext; [by left|done].
  - destruct HP. apply Hext; [by left|done].
Qed.

Lemma removeItem_discard (key : string) (this : NodeStorage) :
  (removeItem key ;;; ret tt) this = (tt, after (removeItem key) this).
Proof. unfold bind, after. by destruct (removeItem key this). Qed.

(** Removing a duplicate-free list of keys: the keys of the list that hold
    a truthy value go, everything else stays. *)
Lemma forEach_removeItem_any (keys : list string) :
  ∀ this : NodeStorage,
    NoDup keys →
    ∃ log : list Invocation,
      forEach keys (λ key, removeItem key ;;; ret tt) this =
        (tt, mkNodeStorage
               (filter (λ kv, ¬ (kv.1 ∈ keys ∧ truthy (Some kv.2) = true))
                  (cache this))
               (changeEmitters this) (invoked this ++ log))
      ∧ ∀ func,
          invocationsOf func log =
          2 * length (filter (λ key, truthy (cache this !! key) = true) keys)
          * registrations func (changeEmitters this).
Proof.
  induction keys as [|k keys IH]; intros this Hnd.
  - exists []. split; [|done]. cbn. unfold ret. rewrite app_nil_r.
    rewrite map_filter_id; [by destruct this|].
    intros ? ? _ [Hin _]. by apply not_elem_of_nil in Hin.
  - apply NoDup_cons in Hnd as [Hk Hnd].
    cbn [forEach]. rewrite (bind_run _ _ _ _ _ (removeItem_discard k this)).
    rewrite after_removeItem.
    destruct (truthy (cache this !! k)) eqn:Ht.
    + set (this1 := mkNodeStorage _ _ _).
      destruct (IH this1 Hnd) as (log & Hrun & Hcount).
      eexists. split.
      * rewrite Hrun. subst this1. cbn [cache changeEmitters invoked].
        rewrite <- !app_assoc. f_equal. f_equal. apply map_eq. intros j.
        rewrite !lookup_filter_dec. destruct (decide (j = k)) as [->|Hne].
        -- rewrite lookup_delete_eq. destruct (cache this !! k) as [v|]; [|done].
           rewrite decide_False; [done|]. intros Hn. apply Hn. cbn.
           split; [by left|done].
        -- rewrite lookup_delete_ne by done.
           destruct (cache this !! j) as [v|]; [|done]. cbn.
           destruct (decide (j ∈ keys ∧ truthy (Some v) = true)) as [Hj|Hj].
           ++ rewrite !decide_False; [done| |]; intros Hn; apply Hn; [|done].
              destruct Hj. split; [by right|done].
           ++ rewrite !decide_True; [done| |done].
              intros [[?|?]%elem_of_cons ?]; [done|]. by apply Hj.
      * intros func. rewrite !invocationsOf_app, !invocationsOf_notifications.
        rewrite Hcount. subst this1. cbn [cache changeEmitters].
        rewrite filter_cons_True by done. cbn [length].
        rewrite (filter_ext_elem
                   (λ key, truthy (delete k (cache this) !! key) = true)
                   (λ key, truthy (cache this !! key) = true)); [lia|].
        intros key Hin. rewrite lookup_delete_ne; [done|]. by intros ->.
    + destruct (IH this Hnd) as (log & Hrun & Hcount).
      exists log. split.
      * rewrite Hrun. f_equal. f_equal. apply map_eq. intros j.
        rewrite !lookup_filter_dec.
        destruct (cache this !! j) as [v|] eqn:Hj; [|done]. cbn.
        destruct (decide (j ∈ keys ∧ truthy (Some v) = true)) as [Hd|Hd].
        -- rewrite !decide_False; [done| |]; intros Hn; apply Hn; [|done].
           destruct Hd. split; [by right|done].
        -- rewrite !decide_True; [done| |done].
           intros [[->|?]%elem_of_cons Htv]; [|by apply Hd].
           change (truthy (Some v) = true) in Htv. cbn [fst] in Hj.
           rewrite Hj in Ht. congruence.
      * intros func. rewrite Hcount. by rewrite filter_cons_False by (by rewrite Ht).
Qed.

Lemma after_clear (this : NodeStorage) :
  ∃ log : list Invocation,
    after clear this =
      mkNodeStorage (filter (λ kv, truthy (Some kv.2) = false) (cache this))
        (changeEmitters this)
        (invoked this ++ log ++
         notifications (filter (λ kv, truthy (Some kv.2) = false)
                          (cache this)) (changeEmitters this))
    ∧ ∀ func, invocationsOf func log =
              2 * length (truthyKeys this)
              * registrations func (changeEmitters this).
Proof.
  destruct (forEach_removeItem_any (map_to_list (cache this)).*1 this)
    as (log & Hrun & Hcount); [apply NoDup_fst_map_to_list|].
  assert (filter (λ kv : string * ValidCacheType,
                    ¬ (kv.1 ∈ (map_to_list (cache this)).*1
                       ∧ truthy (Some kv.2) = true)) (cache this) =
          filter (λ kv, truthy (Some kv.2) = false) (cache this)) as Hleft.
  { apply map_eq. intros j. rewrite !lookup_filter_dec.
    destruct (cache this !! j) as [v|] eqn:Hj; [|done]. cbn [fst snd].
    destruct (truthy (Some v)) eqn:Hv.
    - rewrite decide_False, decide_False; [done|done|].
      intros Hn. apply Hn. split; [|done].
      apply (elem_of_getKeys j this). by exists v.
    - rewrite decide_True, decide_True; [done|done|]. by intros [_ ?]. }
  rewrite Hleft in Hrun. exists log. split.
  - unfold after, clear.
    rewrite (bind_run _ _ _ _ _ (getKeys_eq this)), (bind_run _ _ _ _ _ Hrun).
    rewrite emitChange_eq. cbn. by rewrite <- app_assoc.
  - intros func. rewrite Hcount. unfold truthyKeys, result.
    by rewrite getKeys_eq.
Qed.

Lemma lookup_after_clear (this : NodeStorage) (key : string) :
  cache (after clear this) !! key =
  if truthy (cache this !! key) then None else cache this !! key.
Proof.
  destruct (after_clear this) as (log & -> & _). cbn [cache].
  rewrite lookup_filter_dec. destruct (cache this !! key) as [v|]; [|done].
  cbn [fst snd].
  destruct (truthy (Some v)); [by rewrite decide_False|by rewrite decide_True].
Qed.



Lemma forEach_removeItem_falsy (keys : list string) (this : NodeStorage) :
  (∀ key, key ∈ keys → truthy (cache this !! key) = false) →
  forEach keys (λ key, removeItem key ;;; ret tt) this = (tt, this).
Proof.
  induction keys as [|k keys IH]; intros Hall; [done|].
  cbn [forEach]. rewrite (bind_run _ _ _ _ _ (removeItem_discard k this)).
  rewrite after_removeItem, Hall by (by left).
  apply IH. intros key Hin. apply Hall. by right.
Qed.

(** X6. [clear()] on a store with no truthy entry, the empty store above
    all, changes nothing and notifies exactly once; so a second [clear()]
    right after a first one is a single notification round. *)
Theorem clear_without_truthy_entries (this : NodeStorage) :
  ((∀ key, truthy (cache this !! key) = false) → clear this = emitChange this)
  ∧ clear (after clear this) = emitChange (after clear this)
  ∧ cache (after clear (after clear this)) = cache (after clear this).
Proof.
  assert (∀ that : NodeStorage,
            (∀ key, truthy (cache that !! key) = false) →
            clear that = emitChange that) as Hidle.
  { intros that Hall. unfold clear.
    rewrite (bind_run _ _ _ _ _ (getKeys_eq that)).
    by rewrite (bind_run _ _ _ _ _
                  (forEach_removeItem_falsy _ that (λ key _, Hall key))). }
  assert (∀ key, truthy (cache (after clear this) !! key) = false) as Hnone.
  { intros key. rewrite lookup_after_clear.
    by destruct (truthy (cache this !! key)) eqn:Hv. }
  split; [apply Hidle|]. split; [by apply Hidle|].
  unfold after at 1. rewrite (Hidle _ Hnone), emitChange_eq. done.
Qed.

Lemma clear_without_truthy_entries_witness :
  clear (mkNodeStorage ∅ [7] []) = emitChange (mkNodeStorage ∅ [7] []).
Proof.
  apply (clear_without_truthy_entries (mkNodeStorage ∅ [7] [])).
  intros key. cbn [cache]. by rewrite lookup_empty.
Defined.

(** ** Keys *)



Lemma elem_of_bucket_keys (K : EntityKind) (c : CacheKVStore) (key : string) :
  key ∈ (map_to_list (bucket K (cacheToInMemoryCache c))).*1 ↔
  ∃ value, c !! key = Some value ∧ firstAccepting value = Some K.
Proof.
  rewrite list_elem_of_fmap. split.
  - intros [[k v] [-> Hin]]. apply elem_of_map_to_list in Hin.
    rewrite lookup_cacheToInMemoryCache in Hin. cbn [fst] in *.
    destruct (c !! k) as [value|]; [|done]. cbn -[firstAccepting] in Hin.
    case_bool_decide; [|done]. exists value. split; [done|done].
  - intros (value & Hv & Hfirst). exists (key, value). split; [done|].
    apply elem_of_map_to_list. rewrite lookup_cacheToInMemoryCache, Hv.
    cbn -[firstAccepting]. by rewrite bool_decide_eq_true_2.
Qed.


(** ** Writing the bucketed view back *)

Lemma lookup_inMemoryCacheToCache (this : NodeStorage)
    (inMemoryCache : InMemoryCache) (key : string) :
  result (inMemoryCacheToCache inMemoryCache) this !! key =
  match appMetadata inMemoryCache !! key with
  | Some v => Some v
  | None =>
    match refreshTokens inMemoryCache !! key with
    | Some v => Some v
    | None =>
      match accessTokens inMemoryCache !! key with
      | Some v => Some v
      | None =>
        match idTokens inMemoryCache !! key with
        | Some v => Some v
        | None =>
          match accounts inMemoryCache !! key with
          | Some v => Some v
          | None => cache this !! key
          end
        end
      end
    end
  end.
Proof.
  unfold result, inMemoryCacheToCache, bind, getCache. cbn.
  rewrite !lookup_spread, lookup_empty. by destruct (cache this !! key).
Qed.

Lemma after_setInMemoryCache (this : NodeStorage) (inMemoryCache : InMemoryCache) :
  let merged := result (inMemoryCacheToCache inMemoryCache) this in
  after (setInMemoryCache inMemoryCache) this =
  mkNodeStorage merged (changeEmitters this)
    (invoked this ++ notifications merged (changeEmitters this)
     ++ notifications merged (changeEmitters this)).
Proof.
  intros merged.
  assert (inMemoryCacheToCache inMemoryCache this = (merged, this)) as Hrun
    by done.
  unfold after, setInMemoryCache.
  rewrite (bind_run _ _ _ _ _ Hrun), (bind_run _ _ _ _ _ (setCache_eq _ _)).
  rewrite emitChange_eq. cbn. by rewrite <- app_assoc.
Qed.

(** X9. Writing the engine's own bucketed view back into it changes no
    binding of the flat store, entries outside the five buckets included,
    and still notifies every callback twice. *)
Theorem setInMemoryCache_of_own_view (this : NodeStorage) :
  let written := after (setInMemoryCache (result getInMemoryCache this)) this in
  cache written = cache this
  ∧ changeEmitters written = changeEmitters this
  ∧ invoked written =
      invoked this ++ notifications (cache this) (changeEmitters this)
      ++ notifications (cache this) (changeEmitters this).
Proof.
  intros written. subst written. rewrite after_setInMemoryCache.
  cbn [cache changeEmitters invoked].
  assert (result (inMemoryCacheToCache (result getInMemoryCache this)) this =
          cache this) as ->; [|done].
  apply map_eq. intros key. rewrite lookup_inMemoryCacheToCache.
  change (result getInMemoryCache this)
    with (cacheToInMemoryCache (cache this)).
  pose proof (lookup_cacheToInMemoryCache (cache this) Account key) as HA.
  pose proof (lookup_cacheToInMemoryCache (cache this) IdToken key) as HI.
  pose proof (lookup_cacheToInMemoryCache (cache this) AccessToken key) as HT.
  pose proof (lookup_cacheToInMemoryCache (cache this) RefreshToken key) as HR.
  pose proof (lookup_cacheToInMemoryCache (cache this) AppMetadata key) as HM.
  cbn [bucket] in *. rewrite HA, HI, HT, HR, HM.
  destruct (cache this !! key) as [v|]; [|done]. cbn -[firstAccepting].
  by repeat case_bool_decide.
Qed.


Lemma merged_lookup_other (this : NodeStorage) (inMemoryCache : InMemoryCache)
    (key : string) :
  (∀ K, bucket K inMemoryCache !! key = None) →
  result (inMemoryCacheToCache inMemoryCache) this !! key = cache this !! key.
Proof.
  intros Hnone. rewrite lookup_inMemoryCacheToCache.
  pose proof (Hnone Account) as HA. pose proof (Hnone IdToken) as HI.
  pose proof (Hnone AccessToken) as HT. pose proof (Hnone RefreshToken) as HR.
  pose proof (Hnone AppMetadata) as HM. cbn [bucket] in *.
  by rewrite HA, HI, HT, HR, HM.
Qed.



(** X11. [setInMemoryCache] merges and never removes: every key of the
    flat store is still present afterward, a key that no bucket has keeps
    its value, every bucket key is present, and an empty view changes no
    binding.  Each callback is notified twice, both times observing the
    merged store. *)
Theorem setInMemoryCache_keeps_keys (this : NodeStorage)
    (inMemoryCache : InMemoryCache) :
  let written := after (setInMemoryCache inMemoryCache) this in
  (∀ key, is_Some (cache this !! key) → is_Some (cache written !! key))
  ∧ (∀ key, (∀ K, bucket K inMemoryCache !! key = None) →
            cache written !! key = cache this !! key)
  ∧ (∀ K key, is_Some (bucket K inMemoryCache !! key) →
              is_Some (cache written !! key))
  ∧ cache (after (setInMemoryCache emptyInMemoryCache) this) = cache this
  ∧ changeEmitters written = changeEmitters this
  ∧ invoked written =
      invoked this ++ notifications (cache written) (changeEmitters this)
      ++ notifications (cache written) (changeEmitters this).
Proof.
  intros written. subst written. rewrite !after_setInMemoryCache.
  cbn [cache changeEmitters invoked]. repeat split.
  - intros key [v Hv]. rewrite lookup_inMemoryCacheToCache, Hv.
    repeat (case_match; [by eexists|]). by eexists.
  - intros key Hnone. by apply merged_lookup_other.
  - intros K key [v Hv]. rewrite lookup_inMemoryCacheToCache.
    destruct K; cbn [bucket] in Hv; try (by rewrite lookup_empty in Hv);
      rewrite ?Hv; repeat (case_match; [by eexists|]); by eexists.
  - apply map_eq. intros key. apply merged_lookup_other.
    intros K. destruct K; apply lookup_empty.
Qed.

(** ** What every call keeps *)

Lemma last_round (log : list Invocation) (c : CacheKVStore) (funcs : list nat) :
  funcs ≠ [] →
  ∃ i, last (log ++ notifications c funcs) = Some i ∧ seen i = c.
Proof.
  intros Hne. destruct funcs as [|f funcs _] using rev_ind; [done|].
  exists (mkInvocation f c). split; [|done].
  unfold notifications. rewrite map_app, app_assoc. apply last_snoc.
Qed.

Section Commands.
Context `{Collaborators}.

Lemma updateCredentialCacheKey_moved (this : NodeStorage) (key : string)
    (credential : CacheEntity) (item : ValidCacheType) :
  generateCredentialKey credential ≠ key →
  cache this !! key = Some item →
  truthy (Some item) = true →
  let newKey := generateCredentialKey credential in
  let gone := delete key (cache this) in
  let moved := <[newKey := item]> gone in
  updateCredentialCacheKey key credential this =
  (newKey, mkNodeStorage moved (changeEmitters this)
             (invoked this
              ++ notifications gone (changeEmitters this)
              ++ notifications gone (changeEmitters this)
              ++ notifications moved (changeEmitters this))).
Proof.
  intros Hne Hitem Ht newKey gone moved.
  assert (truthy (cache this !! key) = true) as Ht' by by rewrite Hitem.
  unfold updateCredentialCacheKey.
  rewrite bool_decide_eq_true_2 by done.
  unfold bind at 1. unfold getItem, bind at 1, getCache. cbn [ret].
  rewrite Hitem, Ht.
  rewrite (bind_run _ _ _ _ _ (removeItem_truthy key this Ht')).
  rewrite (bind_run _ _ _ _ _ (setItem_eq _ _ _)).
  cbn [cache changeEmitters invoked]. unfold ret.
  by rewrite <- !app_assoc.
Qed.

Lemma after_updateCredentialCacheKey (this : NodeStorage) (key : string)
    (credential : CacheEntity) :
  let newKey := generateCredentialKey credential in
  let gone := delete key (cache this) in
  after (updateCredentialCacheKey key credential) this =
  match cache this !! key with
  | Some item =>
      if bool_decide (newKey ≠ key) && truthy (Some item)
      then mkNodeStorage (<[newKey := item]> gone) (changeEmitters this)
             (invoked this
              ++ notifications gone (changeEmitters this)
              ++ notifications gone (changeEmitters this)
              ++ notifications (<[newKey := item]> gone) (changeEmitters this))
      else this
  | None => this
  end.
Proof.
  intros newKey gone. unfold after.
  destruct (decide (newKey = key)) as [Heq|Hne].
  { rewrite updateCredentialCacheKey_same by done.
    rewrite bool_decide_eq_false_2 by (intros Hn; by apply Hn).
    by destruct (cache this !! key). }
  rewrite bool_decide_eq_true_2 by done.
  destruct (cache this !! key) as [item|] eqn:Hitem.
  - destruct (truthy (Some item)) eqn:Ht.
    + by rewrite (updateCredentialCacheKey_moved this key credential item).
    + rewrite updateCredentialCacheKey_falsy; [done|]. by rewrite Hitem.
  - rewrite updateCredentialCacheKey_falsy; [done|]. by rewrite Hitem.
Qed.

Lemma after_discard {A : Type} (c : M A) (this : NodeStorage) :
  after (c ;;; ret tt) this = after c this.
Proof. unfold after, bind. by destruct (c this). Qed.

(** What one call does to the callbacks, the log and the store: the
    callbacks grow by what the call registers; the log grows; and either
    store and log are untouched or the log now ends with a round that
    observed the store the call leaves. *)
Lemma runCommand_effect (cmd : Command) (this : NodeStorage) :
  let next := after (runCommand cmd) this in
  changeEmitters next = changeEmitters this ++ registeredBy [cmd]
  ∧ (∃ log, invoked next = invoked this ++ log)
  ∧ ((cache next = cache this ∧ invoked next = invoked this)
     ∨ ∃ log, invoked next =
              invoked this ++ log
              ++ notifications (cache next) (changeEmitters this)).
Proof.
  assert (∀ that : NodeStorage,
            changeEmitters that = changeEmitters that ++ []
            ∧ (∃ log, invoked that = invoked that ++ log)
            ∧ ((cache that = cache that ∧ invoked that = invoked that)
               ∨ ∃ log, invoked that =
                        invoked that ++ log
                        ++ notifications (cache that) (changeEmitters that)))
    as Hidle.
  { intros that. rewrite app_nil_r. split; [done|].
    split; [exists []; by rewrite app_nil_r|by left]. }
  assert (∀ (c : CacheKVStore) (log : list Invocation),
            let next := mkNodeStorage c (changeEmitters this)
                          (invoked this ++ log
                           ++ notifications c (changeEmitters this)) in
            changeEmitters next = changeEmitters this ++ []
            ∧ (∃ log', invoked next = invoked this ++ log')
            ∧ ((cache next = cache this ∧ invoked next = invoked this)
               ∨ ∃ log', invoked next =
                         invoked this ++ log'
                         ++ notifications (cache next) (changeEmitters this)))
    as Hround.
  { intros c log next. subst next. cbn [cache changeEmitters invoked].
    rewrite app_nil_r. split; [done|]. split; [by eexists|]. right.
    by exists log. }
  destruct cmd as [func| |c|key value|key| |inMemoryCache|key credential];
    cbn [runCommand]; cbv zeta;
    match goal with
    | |- context [registeredBy ?l] =>
        let r := eval cbv [registeredBy omap list_omap] in (registeredBy l) in
        change (registeredBy l) with r
    end.
  - unfold after, registerChangeEmitter. cbn [snd cache changeEmitters invoked].
    split; [done|]. split; [exists []; by rewrite app_nil_r|by left].
  - unfold after. rewrite emitChange_eq. cbn [snd]. apply (Hround _ []).
  - unfold after. rewrite setCache_eq. cbn [snd]. apply (Hround _ []).
  - rewrite after_setItem. apply (Hround _ []).
  - rewrite after_discard, after_removeItem.
    destruct (truthy (cache this !! key)); [apply Hround | apply Hidle].
  - destruct (after_clear this) as (log & -> & _). apply Hround.
  - rewrite after_setInMemoryCache. cbv zeta. apply Hround.
  - rewrite after_discard, after_updateCredentialCacheKey. cbv zeta.
    destruct (cache this !! key) as [item|]; [|apply Hidle].
    destruct (bool_decide _ && truthy _); [|apply Hidle].
    rewrite (app_assoc (notifications _ _) (notifications _ _)).
    apply Hround.
Qed.

Lemma after_runCommands_cons (cmd : Command) (cmds : list Command)
    (this : NodeStorage) :
  after (runCommands (cmd :: cmds)) this =
  after (runCommands cmds) (after (runCommand cmd) this).
Proof.
  unfold runCommands, after. cbn [forEach]. unfold bind.
  by destruct (runCommand cmd this).
Qed.

(** X12. No call unregisters or reorders a callback, and none rewrites the
    log: after any sequence of calls the registered callbacks are the
    earlier ones followed by those the sequence registered, in order, and
    the earlier log is a prefix of the new one. *)
Theorem callbacks_only_grow (cmds : list Command) (this : NodeStorage) :
  changeEmitters (after (runCommands cmds) this) =
    changeEmitters this ++ registeredBy cmds
  ∧ invoked this `prefix_of` invoked (after (runCommands cmds) this).
Proof.
  revert this. induction cmds as [|cmd cmds IH]; intros this.
  - cbn. by rewrite app_nil_r.
  - rewrite after_runCommands_cons.
    destruct (runCommand_effect cmd this) as (Hem & [log Hlog] & _).
    destruct (IH (after (runCommand cmd) this)) as [IHem IHlog].
    split.
    + rewrite IHem, Hem, <- app_assoc. f_equal.
      by destruct cmd.
    + etrans; [|exact IHlog]. rewrite Hlog. by apply prefix_app_r.
Qed.

(** X13. The store never changes silently: with at least one callback
    registered, after any sequence of calls either store and log are both
    as before, or the last logged invocation observed the store as the
    sequence leaves it. *)
Theorem store_never_changes_silently (cmds : list Command)
    (this : NodeStorage) :
  changeEmitters this ≠ [] →
  let final := after (runCommands cmds) this in
  (cache final = cache this ∧ invoked final = invoked this)
  ∨ ∃ i, last (invoked final) = Some i ∧ seen i = cache final.
Proof.
  revert this. induction cmds as [|cmd cmds IH]; intros this Hne final.
  - left. by subst final.
  - subst final. rewrite after_runCommands_cons.
    destruct (runCommand_effect cmd this) as (Hem & _ & Hstep).
    assert (changeEmitters (after (runCommand cmd) this) ≠ []) as Hne'.
    { rewrite Hem. intros [? _]%app_eq_nil. done. }
    destruct (IH _ Hne') as [[Hc Hl]|Hlast]; [|by right].
    rewrite Hc, Hl. destruct Hstep as [Hsame|[log Hlog]]; [by left|].
    right. rewrite Hlog, app_assoc. by apply last_round.
Qed.
End Commands.

Lemma store_never_changes_silently_witness :
  let this := mkNodeStorage {[ "k1" := sampleAccount ]} [7] [] in
  let final :=
    after (@runCommands sampleCollaborators
             [CallSetItem "old" (VEntity staleIdToken);
              CallUpdateCredentialCacheKey "old" staleIdToken;
              CallRemoveItem "absent-key"]) this in
  (cache final = cache this ∧ invoked final = invoked this)
  ∨ ∃ i, last (invoked final) = Some i ∧ seen i = cache final.
Proof.
  intros this.
  apply (@store_never_changes_silently sampleCollaborators
           [CallSetItem "old" (VEntity staleIdToken);
            CallUpdateCredentialCacheKey "old" staleIdToken;
            CallRemoveItem "absent-key"] this).
  discriminate.
Defined.

(** ** Key repair, further *)

Section KeyRepairFurther.
Context `{Collaborators}.

Lemma result_updateCredentialCacheKey (this : NodeStorage) (key : string)
    (credential : CacheEntity) :
  result (updateCredentialCacheKey key credential) this =
  if bool_decide (generateCredentialKey credential ≠ key)
     && truthy (cache this !! key)
  then generateCredentialKey credential else key.
Proof.
  unfold result. destruct (decide (generateCredentialKey credential = key))
    as [Heq|Hne].
  { rewrite updateCredentialCacheKey_same by done.
    by rewrite bool_decide_eq_false_2 by (intros Hn; by apply Hn). }
  rewrite bool_decide_eq_true_2 by done.
  destruct (truthy (cache this !! key)) eqn:Ht.
  - destruct (cache this !! key) as [item|] eqn:Hitem; [|done].
    by rewrite (updateCredentialCacheKey_moved this key credential item).
  - by rewrite updateCredentialCacheKey_falsy.
Qed.

Lemma updateCredentialCacheKey_changed (this : NodeStorage) (key : string)
    (credential : CacheEntity) :
  result (updateCredentialCacheKey key credential) this ≠ key →
  ∃ item,
    cache this !! key = Some item
    ∧ truthy (Some item) = true
    ∧ generateCredentialKey credential ≠ key
    ∧ result (updateCredentialCacheKey key credential) this =
      generateCredentialKey credential.
Proof.
  rewrite result_updateCredentialCacheKey.
  case_bool_decide as Hne; cbn [andb]; [|done].
  destruct (cache this !! key) as [item|]; [|done].
  destruct (truthy (Some item)) eqn:Ht; [|done]. intros _. by exists item.
Qed.

(** X14. Key repair tells the callbacks exactly what it does: when it
    returns the key it was given, nothing was logged and the engine is as
    before; when it returns another key, every callback was called three
    times per registration, twice observing the store without the old key
    and then once observing the store with the entry under the new key. *)
Theorem updateCredentialCacheKey_notifications (this : NodeStorage)
    (key : string) (credential : CacheEntity) :
  let run := updateCredentialCacheKey key credential in
  (result run this = key → after run this = this)
  ∧ (result run this ≠ key →
     let gone := delete key (cache this) in
     invoked (after run this) =
       invoked this
       ++ notifications gone (changeEmitters this)
       ++ notifications gone (changeEmitters this)
       ++ notifications (cache (after run this)) (changeEmitters this)
     ∧ ∀ func, invocationsOf func (invoked (after run this)) =
               invocationsOf func (invoked this)
               + 3 * registrations func (changeEmitters this)).
Proof.
  intros run. subst run. split.
  - rewrite result_updateCredentialCacheKey, after_updateCredentialCacheKey.
    cbv zeta. destruct (cache this !! key) as [item|]; [|done].
    destruct (bool_decide _ && truthy _) eqn:Hmove; [|done].
    apply andb_true_iff in Hmove as [Hne%bool_decide_eq_true _]. congruence.
  - intros (item & Hitem & Ht & Hne & _)%updateCredentialCacheKey_changed gone.
    unfold after.
    rewrite (updateCredentialCacheKey_moved this key credential item) by done.
    cbn [snd cache invoked]. split; [done|]. intros func.
    rewrite !invocationsOf_app, !invocationsOf_notifications. lia.
Qed.

Lemma result_credential_getters (this : NodeStorage) (key : string) :
  result (getIdTokenCredential key) this =
    (if isEntityOf IdToken (cache this !! key) then cache this !! key else None)
  ∧ result (getAccessTokenCredential key) this =
    (if isEntityOf AccessToken (cache this !! key) then cache this !! key
     else None)
  ∧ result (getRefreshTokenCredential key) this =
    (if isEntityOf RefreshToken (cache this !! key) then cache this !! key
     else None)
  ∧ result (getAccount key) this =
    (if isEntityOf Account (cache this !! key) then cache this !! key else None).
Proof.
  unfold result, getIdTokenCredential, getAccessTokenCredential,
    getRefreshTokenCredential, getAccount, isIdTokenEntity,
    isAccessTokenEntity, isRefreshTokenEntity, isAccountEntity.
  rewrite !(bind_run _ _ this this (cache this !! key)) by done.
  repeat split; by destruct (isEntityOf _ _).
Qed.


(** X16. Key repair touches at most the old key and the derived key: the
    binding of every other key is as before, moved or not. *)
Theorem updateCredentialCacheKey_frame (this : NodeStorage) (key j : string)
    (credential : CacheEntity) :
  j ≠ key →
  j ≠ generateCredentialKey credential →
  result (getItem j) (after (updateCredentialCacheKey key credential) this) =
  result (getItem j) this.
Proof.
  intros Hj Hj'. rewrite after_updateCredentialCacheKey. cbv zeta.
  destruct (cache this !! key) as [item|]; [|done].
  destruct (bool_decide _ && truthy _); [|done].
  unfold result, getItem, bind, getCache. cbn.
  rewrite lookup_insert_ne by done. by apply lookup_delete_ne.
Qed.
End KeyRepairFurther.

Lemma updateCredentialCacheKey_notifications_witness :
  let this := mkNodeStorage {[ "old" := VEntity staleIdToken ]} [7] [] in
  let run := @updateCredentialCacheKey sampleCollaborators "old" staleIdToken in
  invoked (after run this) =
    invoked this
    ++ notifications (delete "old" (cache this)) (changeEmitters this)
    ++ notifications (delete "old" (cache this)) (changeEmitters this)
    ++ notifications (cache (after run this)) (changeEmitters this)
  ∧ ∀ func, invocationsOf func (invoked (after run this)) =
            invocationsOf func (invoked this)
            + 3 * registrations func (changeEmitters this).
Proof.
  intros this run.
  apply (@updateCredentialCacheKey_notifications sampleCollaborators this
           "old" staleIdToken).
  discriminate.
Defined.


Lemma updateCredentialCacheKey_frame_witness :
  let this :=
    mkNodeStorage (<[ "k1" := sampleAccount ]> {[ "old" := VEntity staleIdToken ]})
      [7] [] in
  result (getItem "k1")
    (after (@updateCredentialCacheKey sampleCollaborators "old" staleIdToken)
       this) =
  result (getItem "k1") this.
Proof.
  intros this.
  apply (@updateCredentialCacheKey_frame sampleCollaborators this "old" "k1"
           staleIdToken); discriminate.
Defined.

(** ** Typed setters and getters *)

Section TypedAccessors.
Context `{Collaborators} `{KeyGenerators}.

(** X17. What a typed setter stores, the typed getter of the same kind
    returns under the derived key exactly when the classifier of that kind
    accepts it, and null otherwise: the setters store without checking.
    Two credentials with the same derived key overwrite each other. *)
Theorem typed_set_get_roundtrip (this : NodeStorage) (entity : CacheEntity) :
  let value := Some (VEntity entity) in
  result (getAccount (generateAccountKey entity))
      (after (setAccount entity) this) =
    (if isAccountEntity value then value else None)
  ∧ result (getIdTokenCredential (generateCredentialKey entity))
      (after (setIdTokenCredential entity) this) =
    (if isIdTokenEntity value then value else None)
  ∧ result (getAccessTokenCredential (generateCredentialKey entity))
      (after (setAccessTokenCredential entity) this) =
    (if isAccessTokenEntity value then value else None)
  ∧ result (getRefreshTokenCredential (generateCredentialKey entity))
      (after (setRefreshTokenCredential entity) this) =
    (if isRefreshTokenEntity value then value else None)
  ∧ result (getAppMetadata (generateAppMetadataKey entity))
      (after (setAppMetadata entity) this) =
    (if isAppMetadataEntity (generateAppMetadataKey entity) value
     then value else None)
  ∧ (∀ other,
       generateCredentialKey other = generateCredentialKey entity →
       cache (after (setIdTokenCredential other)
                (after (setIdTokenCredential entity) this)) =
       cache (after (setIdTokenCredential other) this)).
Proof.
  intros value. subst value.
  unfold setAccount, setIdTokenCredential, setAccessTokenCredential,
    setRefreshTokenCredential, setAppMetadata. cbv zeta.
  rewrite !after_setItem.
  set (a := mkNodeStorage (<[generateAccountKey entity := _]> _) _ _).
  set (c := mkNodeStorage (<[generateCredentialKey entity := _]> _) _ _).
  set (m := mkNodeStorage (<[generateAppMetadataKey entity := _]> _) _ _).
  destruct (result_credential_getters a (generateAccountKey entity))
    as (_ & _ & _ & ->).
  destruct (result_credential_getters c (generateCredentialKey entity))
    as (-> & -> & -> & _).
  subst a c. cbn [cache]. rewrite !lookup_insert_eq.
  repeat split.
  - unfold result, getAppMetadata.
    rewrite (bind_run _ _ m m (cache m !! generateAppMetadataKey entity))
      by done.
    subst m. cbn [cache]. rewrite lookup_insert_eq.
    by destruct (isAppMetadataEntity _ _).
  - intros other Hsame. rewrite Hsame, !after_setItem. cbn [cache].
    apply insert_insert_eq.
Qed.

(** X18. After [setAccount(account)] of an account object, the derived
    key is among [getAccountKeys()], and on a store that was empty it is
    the only one. *)
Theorem setAccount_getAccountKeys (this : NodeStorage) (account : CacheEntity) :
  entityKind account = Account →
  generateAccountKey account
    ∈ result getAccountKeys (after (setAccount account) this)
  ∧ (cache this = ∅ →
     result getAccountKeys (after (setAccount account) this) =
     [generateAccountKey account]).
Proof.
  intros Hkind.
  assert (firstAccepting (VEntity account) = Some Account) as Hfirst.
  { unfold firstAccepting. cbn. by rewrite bool_decide_eq_true_2. }
  unfold setAccount. cbv zeta. rewrite after_setItem.
  change (result getAccountKeys ?s)
    with (map_to_list (bucket Account (cacheToInMemoryCache (cache s)))).*1.
  cbn [cache]. split.
  - apply elem_of_bucket_keys. exists (VEntity account).
    by rewrite lookup_insert_eq.
  - intros ->.
    assert (bucket Account
              (cacheToInMemoryCache
                 (<[generateAccountKey account := VEntity account]> ∅)) =
            {[generateAccountKey account := VEntity account]}) as ->.
    { apply map_eq. intros j. rewrite lookup_cacheToInMemoryCache.
      destruct (decide (j = generateAccountKey account)) as [->|Hne].
      - rewrite lookup_insert_eq, lookup_singleton_eq. cbn -[firstAccepting].
        by rewrite bool_decide_eq_true_2.
      - by rewrite lookup_insert_ne, lookup_empty, lookup_singleton_ne. }
    by rewrite map_to_list_singleton.
Qed.
End TypedAccessors.

Lemma setAccount_getAccountKeys_witness :
  let account := mkEntity Account [("homeAccountId", "hid-1");
                                   ("environment", "login.example.com");
                                   ("realm", "common")] in
  result getAccountKeys
    (after (@setAccount sampleKeyGenerators account) (mkNodeStorage ∅ [7] [])) =
  ["hid-1-login.example.com-common"].
Proof.
  intros account.
  apply (@setAccount_getAccountKeys sampleKeyGenerators
           (mkNodeStorage ∅ [7] []) account); reflexivity.
Defined.

(** ** The kinds without a bucket *)

Section KeyedKinds.
Context `{KeyedClassifiers}.

(** X19. The getters of server telemetry, authority metadata and
    throttling data never consult their classifier on a missing or falsy
    item: a missing key and a key holding the empty string both read as
    null.  Otherwise they return the stored item exactly when the
    classifier accepts key and item; they never change the engine; and
    what the matching setter wrote is read back under that condition. *)
Theorem keyed_getters_guarded (this : NodeStorage) (key : string) :
  let item := result (getItem key) this in
  getServerTelemetry key this =
    (if truthy item && isServerTelemetryEntity key item then item else None,
     this)
  ∧ getAuthorityMetadata key this =
    (if truthy item && isAuthorityMetadataEntity key item then item else None,
     this)
  ∧ getThrottlingCache key this =
    (if truthy item && isThrottlingEntity key item then item else None, this)
  ∧ (truthy item = false →
     result (getServerTelemetry key) this = None
     ∧ result (getAuthorityMetadata key) this = None
     ∧ result (getThrottlingCache key) this = None)
  ∧ (∀ value,
       result (getServerTelemetry key) (after (setServerTelemetry key value) this) =
         (if truthy (Some value) && isServerTelemetryEntity key (Some value)
          then Some value else None)
       ∧ result (getAuthorityMetadata key)
           (after (setAuthorityMetadata key value) this) =
         (if truthy (Some value) && isAuthorityMetadataEntity key (Some value)
          then Some value else None)
       ∧ result (getThrottlingCache key)
           (after (setThrottlingCache key value) this) =
         (if truthy (Some value) && isThrottlingEntity key (Some value)
          then Some value else None)).
Proof.
  intros item. subst item.
  assert (∀ that : NodeStorage,
            getServerTelemetry key that =
              (if truthy (cache that !! key)
                  && isServerTelemetryEntity key (cache that !! key)
               then cache that !! key else None, that)
            ∧ getAuthorityMetadata key that =
              (if truthy (cache that !! key)
                  && isAuthorityMetadataEntity key (cache that !! key)
               then cache that !! key else None, that)
            ∧ getThrottlingCache key that =
              (if truthy (cache that !! key)
                  && isThrottlingEntity key (cache that !! key)
               then cache that !! key else None, that)) as Hget.
  { intros that.
    unfold getServerTelemetry, getAuthorityMetadata, getThrottlingCache.
    rewrite !(bind_run _ _ that that (cache that !! key)) by done.
    repeat split; by destruct (truthy _ && _). }
  change (result (getItem key) this) with (cache this !! key).
  destruct (Hget this) as (HS & HA & HT).
  split; [done|]. split; [done|]. split; [done|]. split.
  - intros Hf. unfold result. rewrite HS, HA, HT, Hf. done.
  - intros value.
    unfold setServerTelemetry, setAuthorityMetadata, setThrottlingCache.
    rewrite after_setItem. set (next := mkNodeStorage _ _ _).
    destruct (Hget next) as (HS' & HA' & HT').
    unfold result. rewrite HS', HA', HT'. subst next. cbn [cache fst].
    by rewrite lookup_insert_eq.
Qed.

(** X20. [getAuthorityMetadataKeys()] lists, each once, the keys of the
    store that pass the key test [isAuthorityMetadata], and looks at the
    key alone: whatever is written under such a key is listed. *)
Theorem getAuthorityMetadataKeys_by_key (this : NodeStorage) :
  NoDup (result getAuthorityMetadataKeys this)
  ∧ (∀ key, key ∈ result getAuthorityMetadataKeys this ↔
            key ∈ result getKeys this ∧ isAuthorityMetadata key = true)
  ∧ (∀ key value,
       isAuthorityMetadata key = true →
       key ∈ result getAuthorityMetadataKeys (after (setItem key value) this))
  ∧ after getAuthorityMetadataKeys this = this.
Proof.
  assert (∀ that key,
            key ∈ result getAuthorityMetadataKeys that ↔
            key ∈ result getKeys that ∧ isAuthorityMetadata key = true)
    as Helem.
  { intros that key. unfold result, getAuthorityMetadataKeys.
    rewrite (bind_run _ _ _ _ _ (getKeys_eq that)), getKeys_eq. cbn [fst ret].
    rewrite !list_elem_of_In. apply filter_In. }
  split; [|split; [apply Helem|split; [|done]]].
  - unfold result, getAuthorityMetadataKeys.
    rewrite (bind_run _ _ _ _ _ (getKeys_eq this)). cbn [fst ret].
    apply NoDup_ListNoDup, List.NoDup_filter, NoDup_ListNoDup.
    apply NoDup_fst_map_to_list.
  - intros key value Hkey. apply Helem. split; [|done].
    apply elem_of_getKeys. rewrite after_setItem. cbn [cache].
    rewrite lookup_insert_eq. by eexists.
Qed.
End KeyedKinds.
